(** * Order backlog assistant: validation, aggregation and query pipeline

    A shallow embedding of [order.py]: the [load_data] function (schema
    check, normalisation, the two status-filtered group-by sums and their
    outer merge) and the body of the "Ask" button (selection guard, customer
    filter, breakdown, report text, message history).

    Conventions of the embedding.
    - A cell of a column read with [dtype="string"] is an [option string]:
      [None] is the missing value [<NA>] of an empty spreadsheet cell.
    - Quantities are exact rationals ([Q]); the rounding of binary floating
      point is not modelled.
    - Strings are byte strings, so comparing them orders UTF-8 text by code
      point, as Python does. *)

From Stdlib Require Import List Bool Arith ZArith QArith Qabs Lia.
From Stdlib Require Import Ascii String.
From Stdlib Require Import Sorted Permutation.
From Stdlib Require Import DecimalString.
Import ListNotations.

Local Open Scope list_scope.
Local Open Scope string_scope.

(* ================================================================== *)
(** * Part I: the program *)

(** ** Three-way comparisons *)

Class Cmp (K : Type) := cmp : K -> K -> comparison.

(** Strings are ordered lexicographically by byte. *)
#[export] Instance string_Cmp : Cmp string := String.compare.

(** Tuples are ordered lexicographically, as Python orders tuples. *)
Definition lex (c1 c2 : comparison) : comparison :=
  match c1 with Eq => c2 | _ => c1 end.

#[export] Instance prod_Cmp {A B} `{Cmp A} `{Cmp B} : Cmp (A * B) :=
  fun x y => lex (cmp (fst x) (fst y)) (cmp (snd x) (snd y)).

(** ** Text helpers *)

Definition nl : string := String "010"%char EmptyString.

(** The ASCII white space that [str.strip()] removes. *)
Definition is_space (c : ascii) : bool :=
  let n := nat_of_ascii c in
  ((9 <=? n)%nat && (n <=? 13)%nat) || ((28 <=? n)%nat && (n <=? 32)%nat).

Fixpoint lstrip_chars (l : list ascii) : list ascii :=
  match l with
  | c :: t => if is_space c then lstrip_chars t else l
  | [] => []
  end.

Definition strip (s : string) : string :=
  string_of_list_ascii
    (rev (lstrip_chars (rev (lstrip_chars (list_ascii_of_string s))))).

(** [str.lower()] on the ASCII letters. *)
Definition lower_char (c : ascii) : ascii :=
  let n := nat_of_ascii c in
  if ((65 <=? n)%nat && (n <=? 90)%nat) then ascii_of_nat (n + 32)%nat else c.

Fixpoint lower (s : string) : string :=
  match s with
  | EmptyString => EmptyString
  | String c t => String (lower_char c) (lower t)
  end.

(** ** Sums of quantities *)

Definition Qsum (l : list Q) : Q := fold_left Qplus l 0.
Arguments Qsum : simpl never.

(** ** [groupby(keys).sum()]

    pandas' [groupby] with its defaults ([sort=True]) returns one row per
    distinct key, the keys in ascending order, each with the sum of the
    values of its group.  The result is built here by inserting the rows one
    after the other into a key-ordered association list. *)

Section GroupBy.
Context {K V : Type} `{Cmp K}.
Variable add : V -> V -> V.

Fixpoint insert_sum (k : K) (v : V) (l : list (K * V)) : list (K * V) :=
  match l with
  | [] => [(k, v)]
  | (k', v') :: t =>
      match cmp k k' with
      | Lt => (k, v) :: l
      | Eq => (k', add v' v) :: t
      | Gt => (k', v') :: insert_sum k v t
      end
  end.

Definition groupby_sum (rows : list (K * V)) : list (K * V) :=
  fold_left (fun acc kv => insert_sum (fst kv) (snd kv) acc) rows [].

End GroupBy.

(** ** [pd.merge(left, right, on=keys, how="outer")]

    Both frames come out of [groupby], so each has one row per key, in
    ascending key order.  The outer join keeps the union of the keys in
    ascending order; the side that lacks a key is missing (NaN, [None]). *)

Section MergeOuter.
Context {K : Type} `{Cmp K}.

Fixpoint merge_outer (left right : list (K * Q))
  : list (K * (option Q * option Q)) :=
  let fix merge_right (right : list (K * Q)) :=
    match left, right with
    | [], _ => map (fun kv => (fst kv, (None, Some (snd kv)))) right
    | _, [] => map (fun kv => (fst kv, (Some (snd kv), None))) left
    | (kl, vl) :: left', (kr, vr) :: right' =>
        match cmp kl kr with
        | Lt => (kl, (Some vl, None)) :: merge_outer left' right
        | Eq => (kl, (Some vl, Some vr)) :: merge_outer left' right'
        | Gt => (kr, (None, Some vr)) :: merge_right right'
        end
    end
  in merge_right right.

End MergeOuter.

(** [.fillna(0)] on a numeric cell. *)
Definition fillna0 (x : option Q) : Q :=
  match x with Some q => q | None => 0 end.

(** ** Tables *)

(** A cell of the [ORDERED_QUANTITY] column as the spreadsheet holds it. *)
Inductive qty_cell : Type :=
| QNumber (q : Q)
| QText (s : string)
| QBlank.

(** One row of [df_raw], under the six required headers. *)
Record Row (Qty : Type) : Type := mkRow {
  SOLDTO : option string;
  Type_ : option string;
  Incoterm : option string;
  Status_Summary : option string;
  ORDERED_QUANTITY : Qty;
  City : option string
}.
Arguments mkRow {Qty}.
Arguments SOLDTO {Qty}.
Arguments Type_ {Qty}.
Arguments Incoterm {Qty}.
Arguments Status_Summary {Qty}.
Arguments ORDERED_QUANTITY {Qty}.
Arguments City {Qty}.

(** The sheet as read: its headers, and its rows.  The fields of a row are
    the cells under the required headers; [load_data] looks at them only
    once all six headers are known to be present. *)
Record RawTable : Type := mkRawTable {
  columns : list string;
  rows : list (Row qty_cell)
}.

(** One row of the aggregate frame [df]. *)
Record AggRow : Type := mkAggRow {
  df_SOLDTO : string;
  df_City : string;
  df_Type : string;
  df_Incoterm : string;
  Backlog : Q;
  MTD : Q
}.

(** [group_cols = ["SOLDTO", "City", "Type", "Incoterm"]] *)
Definition Key : Type := string * string * string * string.

Definition agg_key (r : AggRow) : Key :=
  (df_SOLDTO r, df_City r, df_Type r, df_Incoterm r).

(** ** [load_data] *)

Definition required_cols : list string :=
  ["SOLDTO"; "Type"; "Incoterm"; "Status Summary"; "ORDERED_QUANTITY"; "City"].

Definition mem_string (c : string) (l : list string) : bool :=
  existsb (String.eqb c) l.

(** [df_raw.columns = df_raw.columns.str.strip()] followed by
    [[c for c in required_cols if c not in df_raw.columns]]. *)
Definition missing_cols (t : RawTable) : list string :=
  let cols := map strip (columns t) in
  filter (fun c => negb (mem_string c cols)) required_cols.

(** [df[df["Status Summary"] == status]]: a missing status compares as
    missing, and a missing entry of a mask selects nothing. *)
Definition status_is (status : string) (r : Row Q) : bool :=
  match Status_Summary r with
  | Some s => String.eqb s status
  | None => false
  end.

(** The group key of a row; [groupby] (with its default [dropna=True])
    leaves out the rows in which a key column is missing. *)
Definition group_key (r : Row Q) : option Key :=
  match SOLDTO r, City r, Type_ r, Incoterm r with
  | Some s, Some c, Some t, Some i => Some (s, c, t, i)
  | _, _, _, _ => None
  end.

Definition keyed_rows (l : list (Row Q)) : list (Key * Q) :=
  flat_map (fun r => match group_key r with
                     | Some k => [(k, ORDERED_QUANTITY r)]
                     | None => []
                     end) l.

(** [df_raw[df_raw["Status Summary"] == status]
      .groupby(group_cols)["ORDERED_QUANTITY"].sum().reset_index()] *)
Definition status_totals (status : string) (l : list (Row Q))
  : list (Key * Q) :=
  groupby_sum Qplus (keyed_rows (filter (status_is status) l)).

Definition agg_row (x : Key * (option Q * option Q)) : AggRow :=
  let '((s, c, t, i), (b, m)) := x in
  mkAggRow s c t i (fillna0 b) (fillna0 m).

(** The part of [load_data] after the normalisation of [df_raw]. *)
Definition aggregate (l : list (Row Q)) : list AggRow :=
  let backlog := status_totals "backlog" l in
  let mtd := status_totals "dispatched" l in
  map agg_row (merge_outer backlog mtd).

(** [sorted(df["SOLDTO"].unique())] *)
Fixpoint insert_unique (s : string) (l : list string) : list string :=
  match l with
  | [] => [s]
  | x :: t =>
      match cmp s x with
      | Lt => s :: l
      | Eq => l
      | Gt => x :: insert_unique s t
      end
  end.

Definition sorted_unique (l : list string) : list string :=
  fold_left (fun acc s => insert_unique s acc) l [].

Section LoadData.
(** How [pd.to_numeric] reads a text cell: [Some q] when the text is a
    number, [None] when it is not. *)
Variable parse_number : string -> option Q.

(** [pd.to_numeric(..., errors="coerce")]: what cannot be read is NaN. *)
Definition to_numeric (c : qty_cell) : option Q :=
  match c with
  | QNumber q => Some q
  | QText s => parse_number s
  | QBlank => None
  end.

Definition normalize_row (r : Row qty_cell) : Row Q :=
  {| SOLDTO := option_map strip (SOLDTO r);
     Type_ := option_map strip (Type_ r);
     Incoterm := option_map strip (Incoterm r);
     Status_Summary := option_map (fun s => lower (strip s)) (Status_Summary r);
     ORDERED_QUANTITY := fillna0 (to_numeric (ORDERED_QUANTITY r));
     City := option_map strip (City r) |}.

(** [df_raw] once its columns are cleaned. *)
Definition normalize (t : RawTable) : list (Row Q) :=
  map normalize_row (rows t).

(** [load_data] returns [(None, missing)] or [(df, customers)]. *)
Definition load_data (t : RawTable) : option (list AggRow) * list string :=
  match missing_cols t with
  | [] =>
      let df := aggregate (normalize t) in
      (Some df, sorted_unique (map df_SOLDTO df))
  | missing => (None, missing)
  end.

End LoadData.

(** ** The number format [{x:,.2f}] *)

Definition round_half_even (q : Q) : Z :=
  let n := Qnum q in
  let d := Zpos (Qden q) in
  let fl := (n / d)%Z in
  match (2 * (n mod d) ?= d)%Z with
  | Lt => fl
  | Gt => (fl + 1)%Z
  | Eq => if Z.even fl then fl else (fl + 1)%Z
  end.

Definition digits (z : Z) : string :=
  NilZero.string_of_uint (N.to_uint (Z.to_N z)).

(** Commas every three digits, on the digits from the right. *)
Fixpoint group3_rev (l : list ascii) : list ascii :=
  match l with
  | a :: b :: c :: ((_ :: _) as t) => a :: b :: c :: ","%char :: group3_rev t
  | _ => l
  end.

Definition thousands (s : string) : string :=
  string_of_list_ascii (rev (group3_rev (rev (list_ascii_of_string s)))).

Definition digit_char (z : Z) : ascii := ascii_of_nat (48 + Z.to_nat z)%nat.

Definition two_digits (z : Z) : string :=
  String (digit_char (z / 10)) (String (digit_char (z mod 10)) EmptyString).

Definition format_2f (q : Q) : string :=
  let h := round_half_even (Qabs q * 100) in
  (if (Qnum q <? 0)%Z then "-" else "")
    ++ thousands (digits (h / 100)) ++ "." ++ two_digits (h mod 100).

(** ** The "Ask" button *)

Inductive QuestionType : Type := QBacklog | QMTD | QBoth.

Definition question_text (q : QuestionType) : string :=
  match q with
  | QBacklog => "Backlog"
  | QMTD => "MTD"
  | QBoth => "Backlog & MTD"
  end.

Inductive Role : Type := user | assistant.

Record Message : Type := mkMessage { role : Role; content : string }.

(** [st.session_state] *)
Record SessionState : Type := mkSession {
  selected_customer : option string;
  messages : list Message
}.

(** What a run of the script shows. *)
Inductive UiEvent : Type :=
| UiError (text : string)
| UiWarning (text : string)
| UiChat (r : Role) (text : string).

(** [df[df["SOLDTO"].str.lower() == selected_customer.lower()]] *)
Definition customer_df (df : list AggRow) (selected : string) : list AggRow :=
  filter (fun r => String.eqb (lower (df_SOLDTO r)) (lower selected)) df.

Definition BreakdownKey : Type := string * string * string.
Definition BreakdownRow : Type := (BreakdownKey * (Q * Q))%type.

Definition add_pair (x y : Q * Q) : Q * Q :=
  (fst x + fst y, snd x + snd y).

(** [customer_df.groupby(["City", "Type", "Incoterm"], as_index=False)
      .agg({"Backlog": "sum", "MTD": "sum"})] *)
Definition breakdown (cdf : list AggRow) : list BreakdownRow :=
  groupby_sum add_pair
    (map (fun r => ((df_City r, df_Type r, df_Incoterm r), (Backlog r, MTD r)))
       cdf).

Definition row_Backlog (r : BreakdownRow) : Q := fst (snd r).
Definition row_MTD (r : BreakdownRow) : Q := snd (snd r).

Definition total_backlog (b : list BreakdownRow) : Q := Qsum (map row_Backlog b).
Definition total_mtd (b : list BreakdownRow) : Q := Qsum (map row_MTD b).

(** One line of a breakdown list. *)
Definition breakdown_line (value : BreakdownRow -> Q) (r : BreakdownRow)
  : string :=
  let '(city, type, incoterm) := fst r in
  "- " ++ city ++ " | " ++ type ++ " | " ++ incoterm ++ " → "
    ++ format_2f (value r) ++ nl.

(** [backlog_text] (and [mtd_text]): three lines, then one line for each
    row of the breakdown, appended in the order of the rows. *)
Definition section_text (selected metric : string) (total : Q)
    (value : BreakdownRow -> Q) (b : list BreakdownRow) : string :=
  let text := "## " ++ selected ++ " - " ++ metric ++ " Summary" ++ nl in
  let text := text ++ "**Total " ++ metric ++ ":** " ++ format_2f total
                ++ nl ++ nl in
  let text := text ++ "### " ++ metric ++ " by City, Type and Incoterm" ++ nl in
  fold_left (fun text r => text ++ breakdown_line value r) b text.

Definition wants_backlog (q : QuestionType) : bool :=
  match q with QBacklog | QBoth => true | QMTD => false end.

Definition wants_mtd (q : QuestionType) : bool :=
  match q with QMTD | QBoth => true | QBacklog => false end.

Definition parts (q : QuestionType) (selected : string)
    (b : list BreakdownRow) : list string :=
  ((if wants_backlog q
    then [section_text selected "Backlog" (total_backlog b) row_Backlog b]
    else [])
   ++
   (if wants_mtd q
    then [section_text selected "MTD" (total_mtd b) row_MTD b]
    else []))%list.

(** [response = "\n\n".join(parts)] *)
Definition response (q : QuestionType) (selected : string)
    (b : list BreakdownRow) : string :=
  String.concat (nl ++ nl) (parts q selected b).

Definition not_found_text : string :=
  "❌ ERROR: Customer not present in dataset.".

Definition select_warning : string := "Please select a customer.".

Definition append_message (s : SessionState) (r : Role) (text : string)
  : SessionState :=
  {| selected_customer := selected_customer s;
     messages := (messages s ++ [mkMessage r text])%list |}.

(** [not st.session_state.selected_customer]: [None] and the empty string
    are both false in Python. *)
Definition no_selection (s : SessionState) : bool :=
  match selected_customer s with
  | None => true
  | Some c => String.eqb c ""
  end.

(** The body of [if st.button("Ask"):], from the session state before to
    the session state after and what is shown. *)
Definition ask (df : list AggRow) (question_type : QuestionType)
    (s : SessionState) : SessionState * list UiEvent :=
  match selected_customer s with
  | None => (s, [UiWarning select_warning])
  | Some selected =>
      if String.eqb selected "" then (s, [UiWarning select_warning])
      else
        let prompt := question_text question_type ++ " for " ++ selected in
        let s1 := append_message s user prompt in
        match customer_df df selected with
        | [] =>
            (append_message s1 assistant not_found_text,
             [UiChat user prompt; UiChat assistant not_found_text])
        | cdf =>
            let response := response question_type selected (breakdown cdf) in
            (append_message s1 assistant response,
             [UiChat user prompt; UiChat assistant response])
        end
  end.

(** ** The script around [load_data] *)

(** How Python prints a list of plain names, as in [f"{customers_list}"]. *)
Definition py_list_text (l : list string) : string :=
  "[" ++ String.concat ", " (map (fun s => "'" ++ s ++ "'") l) ++ "]".

(** [df, customers_list = load_data(uploaded_file)] and the check that
    follows: either the script stops on an error, or it goes on with the
    aggregate frame and the customer list. *)
Definition load_or_stop (parse_number : string -> option Q) (t : RawTable)
  : UiEvent + (list AggRow * list string) :=
  match load_data parse_number t with
  | (None, customers_list) =>
      inl (UiError ("Missing required columns: " ++ py_list_text customers_list))
  | (Some df, customers_list) => inr (df, customers_list)
  end.

(** A reader for text cells that accepts the plain digit strings, a
    fragment of what [pd.to_numeric] accepts; used in the examples. *)
Definition parse_digits (s : string) : option Q :=
  match s with
  | EmptyString => None
  | _ =>
      match NilZero.uint_of_string s with
      | Some d => Some (inject_Z (Z.of_N (N.of_uint d)))
      | None => None
      end
  end.

(** ** One run of the script

    Streamlit runs the script from top to bottom on every interaction.
    [st.session_state] survives from run to run; a button is [True] only
    in the run its click starts; a select box gives its current choice;
    [st.stop()] ends the run and [st.rerun()] ends it and asks for a new
    one.  The page title, the style sheet and the header box are left
    out. *)

(** [st.session_state] as a run finds it: a key may not be there yet. *)
Record StoredSession : Type := mkStored {
  stored_messages : option (list Message);
  stored_selected : option (option string)
}.

(** [if "messages" not in st.session_state: ...] and the same for
    [selected_customer]. *)
Definition init_session (ss : StoredSession) : SessionState :=
  {| selected_customer :=
       match stored_selected ss with Some c => c | None => None end;
     messages :=
       match stored_messages ss with Some m => m | None => [] end |}.

Definition store_session (s : SessionState) : StoredSession :=
  {| stored_messages := Some (messages s);
     stored_selected := Some (selected_customer s) |}.

(** What the user did to start the run, and what the widgets hold. *)
Record Inputs : Type := mkInputs {
  reset_chat : bool;
  uploaded_file : option RawTable;
  picked : option string;
  clear_search : bool;
  question : QuestionType;
  ask_clicked : bool
}.

Inductive Display : Type :=
| ShowInfo (text : string)
| ShowUi (e : UiEvent).

Inductive Control : Type := Finished | Stopped | Rerun.

Definition upload_hint : string := "Upload Excel file to start chatting.".

(** [for message in st.session_state.messages: ...] *)
Definition show_history (l : list Message) : list Display :=
  map (fun m => ShowUi (UiChat (role m) (content m))) l.

(** Whether the body of the "Ask" button ends in [st.stop()]. *)
Definition ask_stops (df : list AggRow) (s : SessionState) : bool :=
  match selected_customer s with
  | None => true
  | Some selected =>
      if String.eqb selected "" then true
      else match customer_df df selected with [] => true | _ => false end
  end.

Definition script_run (parse_number : string -> option Q) (inp : Inputs)
    (ss : StoredSession) : SessionState * list Display * Control :=
  let s0 := init_session ss in
  if reset_chat inp then
    ({| selected_customer := selected_customer s0; messages := [] |},
     [], Rerun)
  else
    match uploaded_file inp with
    | None => (s0, [ShowInfo upload_hint], Stopped)
    | Some file =>
        match load_or_stop parse_number file with
        | inl e => (s0, [ShowUi e], Stopped)
        | inr (df, customers_list) =>
            let s1 := {| selected_customer := picked inp;
                         messages := messages s0 |} in
            if clear_search inp then
              ({| selected_customer := None; messages := [] |}, [], Rerun)
            else
              let history := show_history (messages s1) in
              if ask_clicked inp then
                let '(s2, shown) := ask df (question inp) s1 in
                (s2, (history ++ map ShowUi shown)%list,
                 if ask_stops df s1 then Stopped else Finished)
              else (s1, history, Finished)
        end
    end.

(** The session state after a sequence of runs, from a fresh session. *)
Definition session_after (parse_number : string -> option Q)
    (runs : list Inputs) : StoredSession :=
  fold_left
    (fun ss inp => store_session (fst (fst (script_run parse_number inp ss))))
    runs (mkStored None None).

(* ================================================================== *)
(** * Part II: properties *)

(** ** Laws of the comparisons *)

Class CmpOk (K : Type) `{Cmp K} : Prop := {
  cmp_eq : forall a b : K, cmp a b = Eq -> a = b;
  cmp_refl : forall a : K, cmp a a = Eq;
  cmp_antisym : forall a b : K, cmp a b = CompOpp (cmp b a);
  cmp_trans : forall a b c : K, cmp a b = Lt -> cmp b c = Lt -> cmp a c = Lt
}.

Lemma cmp_gt_lt {K} `{CmpOk K} (a b : K) : cmp a b = Gt -> cmp b a = Lt.
Proof.
  intros E. rewrite cmp_antisym, E. reflexivity.
Qed.

Lemma cmp_lt_gt {K} `{CmpOk K} (a b : K) : cmp a b = Lt -> cmp b a = Gt.
Proof.
  intros E. rewrite cmp_antisym, E. reflexivity.
Qed.

Lemma cmp_lt_irrefl {K} `{CmpOk K} (a : K) : cmp a a <> Lt.
Proof.
  rewrite cmp_refl. discriminate.
Qed.



Lemma ascii_compare_refl (a : ascii) : Ascii.compare a a = Eq.
Proof.
  unfold Ascii.compare. apply N.compare_refl.
Qed.

Lemma ascii_compare_trans (a b c : ascii) :
  Ascii.compare a b = Lt -> Ascii.compare b c = Lt -> Ascii.compare a c = Lt.
Proof.
  unfold Ascii.compare. rewrite !N.compare_lt_iff. lia.
Qed.

Lemma string_compare_refl (s : string) : String.compare s s = Eq.
Proof.
  induction s as [|a s IH]; simpl; [reflexivity|].
  now rewrite ascii_compare_refl.
Qed.

Lemma string_compare_trans (s t u : string) :
  String.compare s t = Lt -> String.compare t u = Lt -> String.compare s u = Lt.
Proof.
  revert t u. induction s as [|a s IH]; intros [|b t] [|c u]; simpl;
    try discriminate; try reflexivity.
  destruct (Ascii.compare a b) eqn:Eab; try discriminate;
    destruct (Ascii.compare b c) eqn:Ebc; try discriminate; intros H1 H2.
  - apply Ascii.compare_eq_iff in Eab, Ebc. subst.
    rewrite ascii_compare_refl. eauto.
  - apply Ascii.compare_eq_iff in Eab. subst. now rewrite Ebc.
  - apply Ascii.compare_eq_iff in Ebc. subst. now rewrite Eab.
  - now rewrite (ascii_compare_trans a b c).
Qed.

#[export] Instance string_CmpOk : CmpOk string := {|
  cmp_eq := String.compare_eq_iff;
  cmp_refl := string_compare_refl;
  cmp_antisym := String.compare_antisym;
  cmp_trans := string_compare_trans
|}.

Section ProdOk.
Context {A B : Type} `{CmpOk A} `{CmpOk B}.

Lemma prod_cmp_pair (a a' : A) (b b' : B) :
  cmp (a, b) (a', b') = lex (cmp a a') (cmp b b').
Proof.
  reflexivity.
Qed.

Lemma prod_cmp_eq (x y : A * B) : cmp x y = Eq -> x = y.
Proof.
  destruct x as [a b], y as [a' b']. rewrite prod_cmp_pair.
  destruct (cmp a a') eqn:E; simpl; try discriminate.
  intros E'. apply cmp_eq in E, E'. now subst.
Qed.

Lemma prod_cmp_refl (x : A * B) : cmp x x = Eq.
Proof.
  destruct x as [a b]. rewrite prod_cmp_pair.
  now rewrite (cmp_refl a), (cmp_refl b).
Qed.

Lemma prod_cmp_antisym (x y : A * B) : cmp x y = CompOpp (cmp y x).
Proof.
  destruct x as [a b], y as [a' b']. rewrite !prod_cmp_pair.
  rewrite (cmp_antisym a a'), (cmp_antisym b b').
  destruct (cmp a' a); simpl; reflexivity.
Qed.

Lemma prod_cmp_trans (x y z : A * B) :
  cmp x y = Lt -> cmp y z = Lt -> cmp x z = Lt.
Proof.
  destruct x as [a b], y as [a' b'], z as [a'' b'']. rewrite !prod_cmp_pair.
  destruct (cmp a a') eqn:E1; simpl; try discriminate;
    destruct (cmp a' a'') eqn:E2; simpl; try discriminate; intros L1 L2.
  - apply cmp_eq in E1, E2. subst. rewrite (cmp_refl a''). simpl.
    eapply cmp_trans; eassumption.
  - apply cmp_eq in E1. subst. now rewrite E2.
  - apply cmp_eq in E2. subst. now rewrite E1.
  - now rewrite (cmp_trans a a' a'').
Qed.

#[export] Instance prod_CmpOk : CmpOk (A * B) := {|
  cmp_eq := prod_cmp_eq;
  cmp_refl := prod_cmp_refl;
  cmp_antisym := prod_cmp_antisym;
  cmp_trans := prod_cmp_trans
|}.
End ProdOk.

(** ** Exact sums *)

Lemma Qplus_comm_eq (a b : Q) : a + b = b + a.
Proof.
  destruct a as [an ad], b as [bn bd]. unfold Qplus; simpl.
  f_equal; [ring | apply Pos.mul_comm].
Qed.

Lemma Qplus_assoc_eq (a b c : Q) : (a + b) + c = a + (b + c).
Proof.
  destruct a as [an ad], b as [bn bd], c as [cn cd]. unfold Qplus; simpl.
  f_equal; [rewrite !Pos2Z.inj_mul; ring | symmetry; apply Pos.mul_assoc].
Qed.

Lemma Qplus_0_l_eq (a : Q) : 0 + a = a.
Proof.
  destruct a as [an ad]. unfold Qplus; simpl. now rewrite Z.mul_1_r.
Qed.

Lemma Qplus_0_r_eq (a : Q) : a + 0 = a.
Proof.
  rewrite Qplus_comm_eq. apply Qplus_0_l_eq.
Qed.

Lemma fold_Qplus_acc (l : list Q) (a : Q) :
  fold_left Qplus l a = a + Qsum l.
Proof.
  unfold Qsum. revert a. induction l as [|x l IH]; intros a; simpl.
  - now rewrite Qplus_0_r_eq.
  - rewrite IH, (IH (0 + x)), Qplus_0_l_eq. apply Qplus_assoc_eq.
Qed.

Lemma Qsum_nil : Qsum [] = 0.
Proof.
  reflexivity.
Qed.

Lemma Qsum_cons (x : Q) (l : list Q) : Qsum (x :: l) = x + Qsum l.
Proof.
  unfold Qsum at 1. simpl. now rewrite fold_Qplus_acc, Qplus_0_l_eq.
Qed.

Lemma Qsum_app (l1 l2 : list Q) : Qsum (l1 ++ l2) = Qsum l1 + Qsum l2.
Proof.
  induction l1 as [|x l1 IH]; simpl.
  - now rewrite Qsum_nil, Qplus_0_l_eq.
  - now rewrite !Qsum_cons, IH, Qplus_assoc_eq.
Qed.

Lemma Qsum_nonneg (l : list Q) : Forall (fun q => 0 <= q) l -> 0 <= Qsum l.
Proof.
  induction 1 as [|x l Hx _ IH].
  - rewrite Qsum_nil. apply Qle_refl.
  - rewrite Qsum_cons. rewrite <- (Qplus_0_l_eq 0) at 1.
    now apply Qplus_le_compat.
Qed.

(** ** Facts about [groupby_sum] *)

Section GroupByFacts.
Context {K V : Type} {CK : Cmp K} {CKok : CmpOk K}.
Variable add : V -> V -> V.

(** Keys strictly ascending. *)
Definition key_lt (x y : K * V) : Prop := cmp (fst x) (fst y) = Lt.
Definition keys_sorted (l : list (K * V)) : Prop := Sorted key_lt l.

Lemma insert_sum_keys (k : K) (v : V) (l : list (K * V)) (x : K) :
  In x (map fst (insert_sum add k v l)) <-> x = k \/ In x (map fst l).
Proof.
  induction l as [|[k' v'] t IH]; simpl.
  - intuition.
  - destruct (cmp k k') eqn:E; simpl.
    + apply cmp_eq in E. subst. intuition.
    + intuition.
    + rewrite IH. intuition.
Qed.

Lemma insert_sum_HdRel (k : K) (v : V) (l : list (K * V)) (a : K * V) :
  HdRel key_lt a l -> key_lt a (k, v) ->
  HdRel key_lt a (insert_sum add k v l).
Proof.
  intros Hl Ha. destruct l as [|[k' v'] t]; simpl.
  - now constructor.
  - inversion_clear Hl as [|? ? Hak].
    destruct (cmp k k'); constructor; assumption.
Qed.

Lemma insert_sum_sorted (k : K) (v : V) (l : list (K * V)) :
  keys_sorted l -> keys_sorted (insert_sum add k v l).
Proof.
  unfold keys_sorted.
  induction l as [|[k' v'] t IH]; simpl; intros Hs.
  - repeat constructor.
  - inversion_clear Hs as [|? ? Ht Hhd].
    destruct (cmp k k') eqn:E.
    + apply cmp_eq in E. subst. constructor; [assumption|].
      destruct t; constructor. now inversion_clear Hhd.
    + constructor; [now constructor|]. now constructor.
    + constructor; [now apply IH|].
      apply insert_sum_HdRel; [assumption|].
      unfold key_lt; simpl. now apply cmp_gt_lt.
Qed.

Lemma fold_insert_sorted (rows acc : list (K * V)) :
  keys_sorted acc ->
  keys_sorted
    (fold_left (fun acc kv => insert_sum add (fst kv) (snd kv) acc) rows acc).
Proof.
  revert acc. induction rows as [|r rows IH]; simpl; intros acc Hacc.
  - assumption.
  - apply IH. now apply insert_sum_sorted.
Qed.

Lemma groupby_sum_sorted (rows : list (K * V)) :
  keys_sorted (groupby_sum add rows).
Proof.
  apply fold_insert_sorted. constructor.
Qed.

Lemma fold_insert_keys (rows acc : list (K * V)) (x : K) :
  In x (map fst
          (fold_left (fun acc kv => insert_sum add (fst kv) (snd kv) acc)
             rows acc))
  <-> In x (map fst rows) \/ In x (map fst acc).
Proof.
  revert acc. induction rows as [|r rows IH]; simpl; intros acc.
  - intuition.
  - rewrite IH, insert_sum_keys. intuition.
Qed.

Lemma groupby_sum_keys (rows : list (K * V)) (x : K) :
  In x (map fst (groupby_sum add rows)) <-> In x (map fst rows).
Proof.
  unfold groupby_sum. rewrite fold_insert_keys. simpl. intuition.
Qed.




(** With a commutative and associative [add], the order of the rows does
    not matter. *)
Hypothesis add_comm : forall a b, add a b = add b a.
Hypothesis add_assoc : forall a b c, add (add a b) c = add a (add b c).



End GroupByFacts.

(** The sum of the group sums is the sum of the rows. *)
Section GroupByTotals.
Context {K : Type} {CK : Cmp K}.



End GroupByTotals.

(** ** Facts about [merge_outer] *)

Section MergeFacts.
Context {K : Type} {CK : Cmp K} {CKok : CmpOk K}.

Definition left_value (x : K * (option Q * option Q)) : Q :=
  fillna0 (fst (snd x)).
Definition right_value (x : K * (option Q * option Q)) : Q :=
  fillna0 (snd (snd x)).

Lemma merge_outer_nil_l (right : list (K * Q)) :
  merge_outer [] right =
  map (fun kv => (fst kv, (None, Some (snd kv)))) right.
Proof.
  destruct right; reflexivity.
Qed.

Lemma merge_outer_nil_r (left : list (K * Q)) :
  merge_outer left [] =
  map (fun kv => (fst kv, (Some (snd kv), None))) left.
Proof.
  destruct left as [|[k v] t]; reflexivity.
Qed.

Lemma merge_outer_cons (kl kr : K) (vl vr : Q) (left right : list (K * Q)) :
  merge_outer ((kl, vl) :: left) ((kr, vr) :: right) =
  match cmp kl kr with
  | Lt => (kl, (Some vl, None)) :: merge_outer left ((kr, vr) :: right)
  | Eq => (kl, (Some vl, Some vr)) :: merge_outer left right
  | Gt => (kr, (None, Some vr)) :: merge_outer ((kl, vl) :: left) right
  end.
Proof.
  reflexivity.
Qed.

(** An induction scheme that follows the three equations. *)
Lemma merge_outer_ind (P : list (K * Q) -> list (K * Q) -> Prop) :
  (forall right, P [] right) ->
  (forall left, P left []) ->
  (forall kl vl left kr vr right,
      (cmp kl kr = Lt -> P left ((kr, vr) :: right)) ->
      (cmp kl kr = Eq -> P left right) ->
      (cmp kl kr = Gt -> P ((kl, vl) :: left) right) ->
      P ((kl, vl) :: left) ((kr, vr) :: right)) ->
  forall left right, P left right.
Proof.
  intros Hnl Hnr Hcc.
  induction left as [|[kl vl] left IHl]; [exact Hnl|].
  induction right as [|[kr vr] right IHr]; [apply Hnr|].
  apply Hcc; intros _; auto.
Qed.

Ltac merge_induction l r :=
  revert l r;
  match goal with
  | |- forall l' r', @?P l' r' => apply (merge_outer_ind P)
  end.




Lemma merge_outer_keys_left (left right : list (K * Q)) (k : K) :
  In k (map fst left) -> In k (map fst (merge_outer left right)).
Proof.
  merge_induction left right.
  - intros right [].
  - intros left Hk. now rewrite merge_outer_nil_r, map_map.
  - intros kl vl left kr vr right HLt HEq HGt Hk.
    rewrite merge_outer_cons. simpl in Hk.
    destruct (cmp kl kr); rewrite map_cons; cbn [fst In].
    + destruct Hk; auto.
    + destruct Hk; auto.
    + right. apply HGt; [reflexivity|]. exact Hk.
Qed.

Lemma merge_outer_keys_right (left right : list (K * Q)) (k : K) :
  In k (map fst right) -> In k (map fst (merge_outer left right)).
Proof.
  merge_induction left right.
  - intros right Hk. now rewrite merge_outer_nil_l, map_map.
  - intros left [].
  - intros kl vl left kr vr right HLt HEq HGt Hk.
    rewrite merge_outer_cons. simpl in Hk.
    destruct (cmp kl kr) eqn:E; rewrite map_cons; cbn [fst In].
    + apply cmp_eq in E. subst. destruct Hk; auto.
    + right. apply HLt; [reflexivity|]. exact Hk.
    + destruct Hk; auto.
Qed.
End MergeFacts.

(** ** Aggregation ([load_data], after normalisation) *)

Definition present {A : Type} (o : option A) : bool :=
  match o with Some _ => true | None => false end.

(** A row none of whose four key cells is missing. *)
Definition complete_key (r : Row Q) : bool :=
  present (SOLDTO r) && present (City r) && present (Type_ r)
    && present (Incoterm r).

Lemma group_key_complete (r : Row Q) :
  complete_key r = present (group_key r).
Proof.
  unfold complete_key, group_key.
  destruct (SOLDTO r), (City r), (Type_ r), (Incoterm r); reflexivity.
Qed.


Lemma filter_andb {A : Type} (f g : A -> bool) (l : list A) :
  filter (fun x => f x && g x) l = filter g (filter f l).
Proof.
  induction l as [|x l IH]; simpl; [reflexivity|].
  destruct (f x); simpl; [destruct (g x)|]; now rewrite IH.
Qed.




Lemma Backlog_agg_row (x : Key * (option Q * option Q)) :
  Backlog (agg_row x) = left_value x.
Proof.
  destruct x as [[[[s c] t] i] [b m]]. reflexivity.
Qed.

Lemma MTD_agg_row (x : Key * (option Q * option Q)) :
  MTD (agg_row x) = right_value x.
Proof.
  destruct x as [[[[s c] t] i] [b m]]. reflexivity.
Qed.

Lemma agg_key_agg_row (x : Key * (option Q * option Q)) :
  agg_key (agg_row x) = fst x.
Proof.
  destruct x as [[[[s c] t] i] [b m]]. reflexivity.
Qed.










(** ** Schema validation *)






(** ** Numeric coercion *)


Lemma status_totals_key (status : string) (l : list (Row Q)) (r : Row Q)
    (k : Key) :
  In r l -> status_is status r = true -> group_key r = Some k ->
  In k (map fst (status_totals status l)).
Proof.
  intros Hr Hs Hk. unfold status_totals. apply groupby_sum_keys.
  unfold keyed_rows. apply in_map_iff. exists (k, ORDERED_QUANTITY r).
  split; [reflexivity|]. apply in_flat_map. exists r. split.
  - apply filter_In. now split.
  - rewrite Hk. now left.
Qed.

Lemma aggregate_key (l : list (Row Q)) (r : Row Q) (k : Key) :
  In r l ->
  status_is "backlog" r = true \/ status_is "dispatched" r = true ->
  group_key r = Some k ->
  In k (map agg_key (aggregate l)).
Proof.
  intros Hr Hs Hk. unfold aggregate. rewrite map_map.
  rewrite (map_ext _ _ agg_key_agg_row).
  destruct Hs as [Hs|Hs].
  - apply merge_outer_keys_left. eapply status_totals_key; eassumption.
  - apply merge_outer_keys_right. eapply status_totals_key; eassumption.
Qed.





(** ** The query: selection guard and customer filter *)

Lemma customer_df_In (df : list AggRow) (selected : string) (r : AggRow) :
  In r (customer_df df selected) <->
  In r df /\ lower (df_SOLDTO r) = lower selected.
Proof.
  unfold customer_df. rewrite filter_In, String.eqb_eq. reflexivity.
Qed.




Definition sample_df : list AggRow :=
  [mkAggRow "ABC123" "Chicago" "Domestic" "FOB" 100 40;
   mkAggRow "Abc123" "Boston" "Export" "CIF" (5 # 2) 0;
   mkAggRow "XYZ9" "Austin" "Domestic" "EXW" 7 1].




(** C8.  Missing selection: when no customer is selected, the query only
    shows the warning "Please select a customer."; the session state, and
    with it the message history, is returned unchanged. *)
Theorem missing_selection (df : list AggRow) (q : QuestionType)
    (s : SessionState) :
  no_selection s = true ->
  ask df q s = (s, [UiWarning "Please select a customer."]).
Proof.
  unfold no_selection, ask.
  destruct (selected_customer s) as [c|]; [|reflexivity].
  intros E. now rewrite E.
Qed.

Lemma missing_selection_witness :
  let s := mkSession None [mkMessage user "Backlog for ABC123";
                           mkMessage assistant "report"] in
  ask sample_df QBoth s = (s, [UiWarning "Please select a customer."]).
Proof.
  intros s. apply (missing_selection sample_df QBoth s). reflexivity.
Defined.

(** ** The number format *)
















(** ** The report *)

Lemma string_app_assoc (a b c : string) : (a ++ b) ++ c = a ++ (b ++ c).
Proof.
  induction a as [|x a IH]; simpl; [reflexivity | now rewrite IH].
Qed.

Lemma string_app_nil_r (a : string) : a ++ "" = a.
Proof.
  induction a as [|x a IH]; simpl; [reflexivity | now rewrite IH].
Qed.

(** All the texts of a list, one after the other. *)
Definition join_all (l : list string) : string :=
  fold_right String.append "" l.

Lemma fold_append {A : Type} (f : A -> string) (l : list A) (text : string) :
  fold_left (fun text r => text ++ f r) l text = text ++ join_all (map f l).
Proof.
  revert text. induction l as [|x l IH]; intros text; simpl.
  - now rewrite string_app_nil_r.
  - now rewrite IH, string_app_assoc.
Qed.

(** The layout of one breakdown line and of one section of the report. *)
Definition line_shape (city type incoterm : string) (x : Q) : string :=
  "- " ++ city ++ " | " ++ type ++ " | " ++ incoterm ++ " → "
    ++ format_2f x ++ nl.

Definition row_line (value : BreakdownRow -> Q) (r : BreakdownRow) : string :=
  let '(city, type, incoterm, _) := r in
  line_shape city type incoterm (value r).

Definition section_shape (selected metric : string) (total : Q)
    (value : BreakdownRow -> Q) (b : list BreakdownRow) : string :=
  "## " ++ selected ++ " - " ++ metric ++ " Summary" ++ nl
  ++ "**Total " ++ metric ++ ":** " ++ format_2f total ++ nl
  ++ nl
  ++ "### " ++ metric ++ " by City, Type and Incoterm" ++ nl
  ++ join_all (map (row_line value) b).

Lemma breakdown_line_shape (value : BreakdownRow -> Q) (r : BreakdownRow) :
  breakdown_line value r = row_line value r.
Proof.
  destruct r as [[[city type] incoterm] values]. reflexivity.
Qed.

Lemma section_text_shape (selected metric : string) (total : Q)
    (value : BreakdownRow -> Q) (b : list BreakdownRow) :
  section_text selected metric total value b =
  section_shape selected metric total value b.
Proof.
  unfold section_text, section_shape. rewrite fold_append.
  rewrite (map_ext _ _ (breakdown_line_shape value)).
  generalize (join_all (map (row_line value) b)). intros lines.
  rewrite ?string_app_assoc. simpl. rewrite ?string_app_assoc.
  repeat f_equal.
Qed.


(** The report of the sample in the interface description: one customer,
    one key, both metrics. *)
Example report_example :
  response QBoth "ABC123"
    (breakdown [mkAggRow "ABC123" "Chicago" "Domestic" "FOB" 100 40]) =
  "## ABC123 - Backlog Summary" ++ nl ++
  "**Total Backlog:** 100.00" ++ nl ++
  nl ++
  "### Backlog by City, Type and Incoterm" ++ nl ++
  "- Chicago | Domestic | FOB → 100.00" ++ nl ++
  nl ++
  nl ++
  "## ABC123 - MTD Summary" ++ nl ++
  "**Total MTD:** 40.00" ++ nl ++
  nl ++
  "### MTD by City, Type and Incoterm" ++ nl ++
  "- Chicago | Domestic | FOB → 40.00" ++ nl.
Proof.
  reflexivity.
Qed.

Example format_2f_examples :
  map format_2f [0; 1 # 8; 3 # 8; 1234567891 # 1000; 999995 # 1000; -(5 # 2)]
  = ["0.00"; "0.12"; "0.38"; "1,234,567.89"; "1,000.00"; "-2.50"].
Proof.
  reflexivity.
Qed.

(** ** The order of the breakdown *)












(** The two-row sample end to end: one key, backlog 100 and dispatched 40,
    asked for both metrics. *)
Example end_to_end :
  let t := mkRawTable required_cols
             [mkRow (Some "ABC123") (Some "Domestic") (Some "FOB")
                (Some "Backlog") (QNumber 100) (Some "Chicago");
              mkRow (Some "ABC123") (Some "Domestic") (Some "FOB")
                (Some "Dispatched") (QNumber 40) (Some "Chicago")] in
  let df := [mkAggRow "ABC123" "Chicago" "Domestic" "FOB" 100 40] in
  load_or_stop parse_digits t = inr (df, ["ABC123"])
  /\ breakdown (customer_df df "abc123") =
       [(("Chicago", "Domestic", "FOB"), (100, 40))]
  /\ total_backlog (breakdown (customer_df df "abc123")) = 100
  /\ total_mtd (breakdown (customer_df df "abc123")) = 40
  /\ messages (fst (ask df QBoth (mkSession (Some "abc123") []))) =
       [mkMessage user "Backlog & MTD for abc123";
        mkMessage assistant
          (response QBoth "abc123"
             [(("Chicago", "Domestic", "FOB"), (100, 40))])].
Proof.
  repeat split; reflexivity.
Qed.

(* ================================================================== *)
(** * Part III: further properties *)

(** ** The value of a key in a grouped frame *)

Section GroupByLookup.
Context {K V : Type} {CK : Cmp K} {CKok : CmpOk K}.

Definition key_eqb (a b : K) : bool :=
  match cmp a b with Eq => true | _ => false end.

(** The value stored under a key, if any. *)
Fixpoint assoc (k : K) (l : list (K * V)) : option V :=
  match l with
  | [] => None
  | (k', v) :: t => if key_eqb k k' then Some v else assoc k t
  end.

(** The values of the rows of one key, in the order of the rows. *)
Definition group_values (k : K) (rows : list (K * V)) : list V :=
  map snd (filter (fun kv => key_eqb (fst kv) k) rows).

Lemma key_eqb_eq (a b : K) : key_eqb a b = true <-> a = b.
Proof.
  unfold key_eqb. split.
  - destruct (cmp a b) eqn:E; try discriminate. intros _. now apply cmp_eq.
  - intros ->. now rewrite cmp_refl.
Qed.

Lemma key_eqb_refl (a : K) : key_eqb a a = true.
Proof.
  now apply key_eqb_eq.
Qed.

Lemma key_eqb_sym (a b : K) : key_eqb a b = key_eqb b a.
Proof.
  unfold key_eqb. rewrite (cmp_antisym a b). now destruct (cmp b a).
Qed.

Lemma assoc_below (k : K) (l : list (K * V)) :
  Forall (fun x => cmp k (fst x) = Lt) l -> assoc k l = None.
Proof.
  induction 1 as [|[k' v'] t Hx _ IH]; simpl; [reflexivity|].
  simpl in Hx. unfold key_eqb. now rewrite Hx.
Qed.

Lemma keys_sorted_strong (l : list (K * V)) :
  keys_sorted l -> StronglySorted key_lt l.
Proof.
  apply Sorted_StronglySorted. intros x y z. unfold key_lt. apply cmp_trans.
Qed.

Lemma keys_sorted_tail (x : K * V) (l : list (K * V)) :
  keys_sorted (x :: l) ->
  keys_sorted l /\ Forall (fun y => cmp (fst x) (fst y) = Lt) l.
Proof.
  intros Hs. apply keys_sorted_strong in Hs.
  inversion_clear Hs as [|? ? Ht Hx]. split; [|exact Hx].
  now apply StronglySorted_Sorted.
Qed.

Lemma assoc_In (k : K) (v : V) (l : list (K * V)) :
  keys_sorted l -> (In (k, v) l <-> assoc k l = Some v).
Proof.
  induction l as [|[k' v'] t IH]; simpl; intros Hs.
  - split; [tauto | discriminate].
  - apply keys_sorted_tail in Hs. destruct Hs as [Ht Hx]. simpl in Hx.
    destruct (key_eqb k k') eqn:E.
    + apply key_eqb_eq in E. subst k'. split.
      * intros [Heq|HIn]; [congruence|].
        rewrite Forall_forall in Hx. specialize (Hx _ HIn). simpl in Hx.
        exfalso. exact (cmp_lt_irrefl k Hx).
      * intros Heq. left. congruence.
    + rewrite <- (IH Ht). split; [|tauto].
      intros [Heq|HIn]; [|exact HIn].
      injection Heq as -> ->. now rewrite key_eqb_refl in E.
Qed.

Lemma keys_sorted_NoDup (l : list (K * V)) :
  keys_sorted l -> NoDup (map fst l).
Proof.
  induction l as [|x t IH]; simpl; intros Hs; constructor.
  - apply keys_sorted_tail in Hs. destruct Hs as [_ Hx].
    intros HIn. apply in_map_iff in HIn. destruct HIn as [y [Ey Hy]].
    rewrite Forall_forall in Hx. specialize (Hx _ Hy). rewrite Ey in Hx.
    exact (cmp_lt_irrefl _ Hx).
  - apply IH. now apply keys_sorted_tail in Hs.
Qed.

Variable add : V -> V -> V.

(** The values of a group added up from the left. *)
Definition fold_values (vs : list V) : option V :=
  match vs with
  | [] => None
  | v :: t => Some (fold_left add t v)
  end.

Lemma assoc_insert_sum (k k' : K) (v : V) (l : list (K * V)) :
  keys_sorted l ->
  assoc k (insert_sum add k' v l) =
  if key_eqb k k'
  then Some (match assoc k l with Some x => add x v | None => v end)
  else assoc k l.
Proof.
  induction l as [|[k1 v1] t IH]; intros Hs.
  - simpl. now destruct (key_eqb k k').
  - pose proof (keys_sorted_tail _ _ Hs) as [Ht Hx]. simpl in Hx.
    cbn [insert_sum]. destruct (cmp k' k1) eqn:E1.
    + apply cmp_eq in E1. subst k1. cbn [assoc].
      now destruct (key_eqb k k').
    + cbn [assoc]. destruct (key_eqb k k') eqn:E; [|reflexivity].
      apply key_eqb_eq in E. subst k'.
      unfold key_eqb at 1. rewrite E1.
      rewrite assoc_below; [reflexivity|].
      eapply Forall_impl; [|exact Hx].
      intros y Hy. simpl in Hy. eapply cmp_trans; eassumption.
    + cbn [assoc]. destruct (key_eqb k k1) eqn:Ek1.
      * apply key_eqb_eq in Ek1. subst k1.
        unfold key_eqb. now rewrite (cmp_gt_lt _ _ E1).
      * now apply IH.
Qed.

Lemma assoc_fold_insert (k : K) (rows acc : list (K * V)) :
  keys_sorted acc ->
  assoc k (fold_left (fun acc kv => insert_sum add (fst kv) (snd kv) acc)
             rows acc) =
  match assoc k acc with
  | Some a => Some (fold_left add (group_values k rows) a)
  | None => fold_values (group_values k rows)
  end.
Proof.
  revert acc. induction rows as [|[k' v] rows IH]; intros acc Hs.
  - simpl. now destruct (assoc k acc).
  - cbn [fold_left fst snd].
    rewrite IH by (now apply insert_sum_sorted).
    rewrite assoc_insert_sum by assumption.
    unfold group_values. cbn [filter fst]. rewrite (key_eqb_sym k' k).
    destruct (key_eqb k k'); [|reflexivity].
    cbn [map snd fold_values fold_left]. now destruct (assoc k acc).
Qed.

Lemma assoc_groupby_sum (k : K) (rows : list (K * V)) :
  assoc k (groupby_sum add rows) = fold_values (group_values k rows).
Proof.
  unfold groupby_sum. rewrite assoc_fold_insert by constructor. reflexivity.
Qed.

(** Rows with pairwise different keys are only put in order. *)
Lemma insert_sum_fresh (k : K) (v : V) (l : list (K * V)) :
  ~ In k (map fst l) -> Permutation ((k, v) :: l) (insert_sum add k v l).
Proof.
  induction l as [|[k' v'] t IH]; simpl; intros Hk.
  - reflexivity.
  - destruct (cmp k k') eqn:E.
    + apply cmp_eq in E. subst. tauto.
    + reflexivity.
    + rewrite perm_swap. constructor. apply IH. tauto.
Qed.

Lemma fold_insert_fresh (rows acc : list (K * V)) :
  NoDup (map fst (rows ++ acc)) ->
  Permutation (rows ++ acc)
    (fold_left (fun acc kv => insert_sum add (fst kv) (snd kv) acc) rows acc).
Proof.
  revert acc. induction rows as [|[k v] rows IH]; intros acc Hnd; simpl.
  - reflexivity.
  - simpl in Hnd. inversion_clear Hnd as [|? ? Hk Hrest].
    rewrite map_app, in_app_iff in Hk.
    rewrite <- IH.
    + rewrite <- insert_sum_fresh by tauto. apply Permutation_middle.
    + rewrite map_app in *.
      apply (Permutation_NoDup (l := k :: map fst rows ++ map fst acc)).
      * transitivity (map fst rows ++ k :: map fst acc)%list;
          [apply Permutation_middle|].
        apply Permutation_app_head.
        apply (Permutation_map fst (l := (k, v) :: acc)).
        apply insert_sum_fresh. tauto.
      * constructor; [rewrite in_app_iff; tauto | assumption].
Qed.

Lemma groupby_sum_fresh (rows : list (K * V)) :
  NoDup (map fst rows) -> Permutation rows (groupby_sum add rows).
Proof.
  intros Hnd. unfold groupby_sum.
  rewrite <- fold_insert_fresh; rewrite app_nil_r; [reflexivity | assumption].
Qed.
End GroupByLookup.

(** ** The rows of an outer merge *)

Section MergeLookup.
Context {K : Type} {CK : Cmp K} {CKok : CmpOk K}.

Ltac merge_cases l r :=
  revert l r;
  match goal with
  | |- forall l' r', @?P l' r' => apply (merge_outer_ind P)
  end.

Lemma merge_outer_all (P : K -> Prop) (left right : list (K * Q)) :
  Forall (fun x => P (fst x)) left ->
  Forall (fun x => P (fst x)) right ->
  Forall (fun x => P (fst x)) (merge_outer left right).
Proof.
  merge_cases left right.
  - intros right _ Hr. rewrite merge_outer_nil_l.
    induction Hr; simpl; constructor; auto.
  - intros left Hl _. rewrite merge_outer_nil_r.
    induction Hl; simpl; constructor; auto.
  - intros kl vl left kr vr right HLt HEq HGt Hl Hr.
    rewrite merge_outer_cons.
    pose proof (Forall_inv Hl) as Hkl. pose proof (Forall_inv_tail Hl) as Hl'.
    pose proof (Forall_inv Hr) as Hkr. pose proof (Forall_inv_tail Hr) as Hr'.
    destruct (cmp kl kr); constructor; auto.
Qed.

Lemma strongly_sorted_map_keys {A B : Type} (f : A -> B) (l : list (K * A)) :
  StronglySorted key_lt l ->
  StronglySorted key_lt (map (fun kv => (fst kv, f (snd kv))) l).
Proof.
  induction 1 as [|x l _ IH Hx]; simpl; constructor; [exact IH|].
  apply Forall_map. exact Hx.
Qed.

Lemma merge_outer_sorted (left right : list (K * Q)) :
  keys_sorted left -> keys_sorted right ->
  keys_sorted (merge_outer left right).
Proof.
  intros Hl Hr. apply StronglySorted_Sorted.
  apply keys_sorted_strong in Hl. apply keys_sorted_strong in Hr.
  revert Hl Hr. merge_cases left right.
  - intros right _ Hr. rewrite merge_outer_nil_l.
    apply (strongly_sorted_map_keys (fun v => (None, Some v))). exact Hr.
  - intros left Hl _. rewrite merge_outer_nil_r.
    apply (strongly_sorted_map_keys (fun v => (Some v, None))). exact Hl.
  - intros kl vl left kr vr right HLt HEq HGt Hl Hr.
    rewrite merge_outer_cons.
    inversion Hl as [|? ? Hl' Hxl]; subst.
    inversion Hr as [|? ? Hr' Hxr]; subst.
    unfold key_lt in Hxl, Hxr. simpl in Hxl, Hxr.
    destruct (cmp kl kr) eqn:E; constructor; auto.
    + apply cmp_eq in E. subst kr.
      apply (merge_outer_all (fun k => cmp kl k = Lt)); assumption.
    + apply (merge_outer_all (fun k => cmp kl k = Lt)); [assumption|].
      constructor; [exact E|].
      eapply Forall_impl; [|exact Hxr].
      intros y Hy. eapply cmp_trans; eassumption.
    + apply cmp_gt_lt in E.
      apply (merge_outer_all (fun k => cmp kr k = Lt)); [|assumption].
      constructor; [exact E|].
      eapply Forall_impl; [|exact Hxl].
      intros y Hy. eapply cmp_trans; eassumption.
Qed.

Lemma merge_outer_keys_inv (left right : list (K * Q)) (k : K) :
  In k (map fst (merge_outer left right)) ->
  In k (map fst left) \/ In k (map fst right).
Proof.
  merge_cases left right.
  - intros right. rewrite merge_outer_nil_l, map_map. auto.
  - intros left. rewrite merge_outer_nil_r, map_map. auto.
  - intros kl vl left kr vr right HLt HEq HGt.
    rewrite merge_outer_cons.
    destruct (cmp kl kr) eqn:E; rewrite map_cons; cbn [fst In map];
      intros [Hk|Hk]; auto.
    + destruct (HEq eq_refl Hk); auto.
    + destruct (HLt eq_refl Hk) as [H1|H1]; auto.
    + destruct (HGt eq_refl Hk) as [H1|H1]; auto.
Qed.

(** A key of the merged frame carries the value of each side, where the
    side has the key. *)
Lemma merge_outer_assoc (left right : list (K * Q)) (k : K) :
  keys_sorted left -> keys_sorted right ->
  assoc k (merge_outer left right) =
  match assoc k left, assoc k right with
  | None, None => None
  | b, m => Some (b, m)
  end.
Proof.
  merge_cases left right.
  - intros right _ _. rewrite merge_outer_nil_l. cbn [assoc].
    induction right as [|[kr vr] right IH]; cbn [map assoc fst snd];
      [reflexivity|].
    destruct (key_eqb k kr); [reflexivity | exact IH].
  - intros left _ _. rewrite merge_outer_nil_r. cbn [assoc].
    induction left as [|[kl vl] left IH]; cbn [map assoc fst snd];
      [reflexivity|].
    destruct (key_eqb k kl); [reflexivity|].
    rewrite IH. now destruct (assoc k left).
  - intros kl vl left kr vr right HLt HEq HGt Hl Hr.
    rewrite merge_outer_cons.
    pose proof (keys_sorted_tail _ _ Hl) as [Hl' Hxl].
    pose proof (keys_sorted_tail _ _ Hr) as [Hr' Hxr].
    simpl in Hxl, Hxr.
    destruct (cmp kl kr) eqn:E.
    + apply cmp_eq in E. subst kr. cbn [assoc].
      destruct (key_eqb k kl); [reflexivity|].
      now apply HEq.
    + cbn [assoc]. destruct (key_eqb k kl) eqn:Ek.
      * apply key_eqb_eq in Ek. subst kl.
        unfold key_eqb. rewrite E. rewrite assoc_below; [reflexivity|].
        eapply Forall_impl; [|exact Hxr].
        intros y Hy. simpl in Hy. eapply cmp_trans; eassumption.
      * rewrite (HLt eq_refl Hl' Hr). reflexivity.
    + cbn [assoc]. destruct (key_eqb k kr) eqn:Ek.
      * apply key_eqb_eq in Ek. subst kr. apply cmp_gt_lt in E.
        unfold key_eqb. rewrite E. rewrite assoc_below; [reflexivity|].
        eapply Forall_impl; [|exact Hxl].
        intros y Hy. simpl in Hy. eapply cmp_trans; eassumption.
      * rewrite (HGt eq_refl Hl Hr'). cbn [assoc]. reflexivity.
Qed.


End MergeLookup.

(** ** The aggregate table, key by key *)

(** The rows of one group: the four key cells are present and equal to
    the key. *)
Definition row_has_key (k : Key) (r : Row Q) : bool :=
  match group_key r with
  | Some k' => key_eqb k' k
  | None => false
  end.

Lemma group_values_keyed (k : Key) (l : list (Row Q)) :
  group_values k (keyed_rows l) =
  map ORDERED_QUANTITY (filter (row_has_key k) l).
Proof.
  unfold group_values, keyed_rows, row_has_key.
  induction l as [|r l IH]; cbn [flat_map filter map]; [reflexivity|].
  destruct (group_key r) as [k'|]; cbn [app filter fst].
  - destruct (key_eqb k' k); cbn [map snd]; now rewrite IH.
  - exact IH.
Qed.

Lemma fold_values_Qsum (vs : list Q) : fillna0 (fold_values Qplus vs) = Qsum vs.
Proof.
  destruct vs as [|v t]; cbn [fold_values fillna0]; [reflexivity|].
  now rewrite fold_Qplus_acc, Qsum_cons.
Qed.

Lemma status_totals_sorted (status : string) (l : list (Row Q)) :
  keys_sorted (status_totals status l).
Proof.
  apply groupby_sum_sorted.
Qed.

Lemma status_totals_assoc (status : string) (l : list (Row Q)) (k : Key) :
  fillna0 (assoc k (status_totals status l)) =
  Qsum (map ORDERED_QUANTITY
          (filter (fun x => status_is status x && row_has_key k x) l)).
Proof.
  unfold status_totals.
  rewrite assoc_groupby_sum, fold_values_Qsum, group_values_keyed.
  now rewrite filter_andb.
Qed.

Lemma aggregate_sorted (l : list (Row Q)) :
  keys_sorted
    (merge_outer (status_totals "backlog" l) (status_totals "dispatched" l)).
Proof.
  apply merge_outer_sorted; apply status_totals_sorted.
Qed.

Lemma aggregate_In_values (l : list (Row Q)) (r : AggRow) :
  In r (aggregate l) ->
  Backlog r = fillna0 (assoc (agg_key r) (status_totals "backlog" l))
  /\ MTD r = fillna0 (assoc (agg_key r) (status_totals "dispatched" l)).
Proof.
  unfold aggregate. intros Hr. apply in_map_iff in Hr.
  destruct Hr as [[k [b m]] [Er Hx]]. subst r.
  rewrite Backlog_agg_row, MTD_agg_row, agg_key_agg_row.
  unfold left_value, right_value. cbn [fst snd].
  apply (assoc_In _ _ _ (aggregate_sorted l)) in Hx.
  rewrite merge_outer_assoc in Hx by apply status_totals_sorted.
  destruct (assoc k (status_totals "backlog" l)),
    (assoc k (status_totals "dispatched" l));
    inversion Hx; subst; split; reflexivity.
Qed.


Definition three_rows : list (Row Q) :=
  [mkRow (Some "ABC123") (Some "Domestic") (Some "FOB") (Some "backlog") 100
     (Some "Chicago");
   mkRow (Some "XYZ9") (Some "Export") (Some "CIF") (Some "dispatched") 7
     (Some "Boston");
   mkRow (Some "ABC123") (Some "Domestic") (Some "FOB") (Some "backlog") 20
     (Some "Chicago")].


(** X2.  A key whose group has no "dispatched" row has [MTD] exactly 0 in
    the aggregate table, and a key with no "backlog" row has [Backlog]
    exactly 0: the side the outer merge lacks is filled with 0. *)
Theorem aggregate_missing_side_zero (l : list (Row Q)) (r : AggRow) :
  In r (aggregate l) ->
  ((forall x, In x l -> status_is "dispatched" x = true ->
              group_key x <> Some (agg_key r)) -> MTD r = 0)
  /\
  ((forall x, In x l -> status_is "backlog" x = true ->
              group_key x <> Some (agg_key r)) -> Backlog r = 0).
Proof.
  intros Hr. destruct (aggregate_In_values l r Hr) as [Hb Hm].
  assert (G : forall status,
             (forall x, In x l -> status_is status x = true ->
                        group_key x <> Some (agg_key r)) ->
             filter (fun x => status_is status x
                              && row_has_key (agg_key r) x) l = []).
  { intros status Hno.
    destruct (filter _ l) as [|x t] eqn:E; [reflexivity|].
    assert (Hx : In x (filter (fun x => status_is status x
                                 && row_has_key (agg_key r) x) l))
      by (rewrite E; now left).
    apply filter_In in Hx. destruct Hx as [Hx Hc].
    apply andb_prop in Hc. destruct Hc as [Hs Hk].
    exfalso. apply (Hno x Hx Hs).
    unfold row_has_key in Hk. destruct (group_key x); [|discriminate].
    apply key_eqb_eq in Hk. now subst. }
  split; intros Hno.
  - now rewrite Hm, status_totals_assoc, (G _ Hno).
  - now rewrite Hb, status_totals_assoc, (G _ Hno).
Qed.

Lemma aggregate_missing_side_zero_witness :
  In (mkAggRow "ABC123" "Chicago" "Domestic" "FOB" 120 0)
    (aggregate three_rows)
  /\ MTD (mkAggRow "ABC123" "Chicago" "Domestic" "FOB" 120 0) = 0.
Proof.
  assert (HIn : In (mkAggRow "ABC123" "Chicago" "Domestic" "FOB" 120 0)
                  (aggregate three_rows)) by (left; reflexivity).
  split; [exact HIn|].
  apply (proj1 (aggregate_missing_side_zero three_rows _ HIn)).
  intros x Hx Hs. simpl in Hx.
  repeat (destruct Hx as [<-|Hx]; [discriminate|]).
  destruct Hx.
Defined.

(** X3.  The keys of the aggregate table are exactly the complete keys of
    the normalized rows whose status is "backlog" or "dispatched". *)
Theorem aggregate_keys_exact (l : list (Row Q)) (k : Key) :
  In k (map agg_key (aggregate l)) <->
  exists x, In x l
            /\ (status_is "backlog" x = true
                \/ status_is "dispatched" x = true)
            /\ group_key x = Some k.
Proof.
  split.
  - unfold aggregate. rewrite map_map, (map_ext _ _ agg_key_agg_row).
    intros Hk. apply merge_outer_keys_inv in Hk.
    assert (G : forall status,
               In k (map fst (status_totals status l)) ->
               exists x, In x l /\ status_is status x = true
                         /\ group_key x = Some k).
    { intros status HIn. unfold status_totals in HIn.
      apply groupby_sum_keys in HIn. apply in_map_iff in HIn.
      destruct HIn as [[k' v] [Ek HIn]]. simpl in Ek. subst k'.
      unfold keyed_rows in HIn. apply in_flat_map in HIn.
      destruct HIn as [x [Hx Hkx]]. apply filter_In in Hx.
      destruct Hx as [Hx Hs]. exists x.
      destruct (group_key x); [|destruct Hkx].
      destruct Hkx as [E|[]]. injection E as ->. auto. }
    destruct Hk as [Hk|Hk]; apply G in Hk;
      destruct Hk as [x [Hx [Hs Hkx]]]; exists x; auto.
  - intros [x [Hx [Hs Hk]]]. eapply aggregate_key; eassumption.
Qed.

(** X4.  The aggregate table has one row for each key: its keys are
    pairwise different, and they are in ascending lexicographic order of
    (SOLDTO, City, Type, Incoterm). *)
Theorem aggregate_one_row_per_key (l : list (Row Q)) :
  NoDup (map agg_key (aggregate l))
  /\ StronglySorted (fun a b => cmp (agg_key a) (agg_key b) = Lt)
       (aggregate l).
Proof.
  pose proof (aggregate_sorted l) as Hs. unfold aggregate. split.
  - rewrite map_map, (map_ext _ _ agg_key_agg_row).
    now apply keys_sorted_NoDup.
  - apply keys_sorted_strong in Hs. induction Hs as [|x t _ IH Hx];
      simpl; constructor; [exact IH|].
    apply Forall_map. eapply Forall_impl; [|exact Hx].
    intros y Hy. now rewrite !agg_key_agg_row.
Qed.

(** ** The customer list *)

Definition unit_add (_ _ : unit) : unit := tt.

Lemma insert_unique_keys (s : string) (l : list (string * unit)) :
  insert_unique s (map fst l) = map fst (insert_sum unit_add s tt l).
Proof.
  induction l as [|[k []] t IH]; simpl; [reflexivity|].
  destruct (cmp s k); simpl; [reflexivity | reflexivity | now rewrite IH].
Qed.

Lemma sorted_unique_groupby (l : list string) :
  sorted_unique l =
  map fst (groupby_sum unit_add (map (fun s => (s, tt)) l)).
Proof.
  unfold sorted_unique, groupby_sum.
  change (@nil string) with (map fst (@nil (string * unit))).
  generalize (@nil (string * unit)).
  induction l as [|s l IH]; intros acc; simpl; [reflexivity|].
  now rewrite insert_unique_keys, IH.
Qed.

Lemma sorted_unique_In (l : list string) (c : string) :
  In c (sorted_unique l) <-> In c l.
Proof.
  rewrite sorted_unique_groupby, groupby_sum_keys, map_map. simpl.
  now rewrite map_id.
Qed.

Lemma sorted_unique_sorted (l : list string) :
  StronglySorted (fun a b => String.compare a b = Lt) (sorted_unique l).
Proof.
  rewrite sorted_unique_groupby.
  pose proof (keys_sorted_strong _
                (groupby_sum_sorted unit_add (map (fun s => (s, tt)) l)))
    as Hs.
  induction Hs as [|x t _ IH Hx]; simpl; constructor; [exact IH|].
  apply Forall_map. exact Hx.
Qed.

Lemma sorted_unique_NoDup (l : list string) : NoDup (sorted_unique l).
Proof.
  rewrite sorted_unique_groupby. apply keys_sorted_NoDup.
  apply groupby_sum_sorted.
Qed.

(** X5.  The customer list that [load_data] returns with the aggregate
    table holds exactly the [SOLDTO] values of the table, each once, in
    ascending order. *)
Theorem customers_list_exact (parse_number : string -> option Q)
    (t : RawTable) (df : list AggRow) (customers : list string) :
  load_data parse_number t = (Some df, customers) ->
  (forall c, In c customers <-> exists r, In r df /\ df_SOLDTO r = c)
  /\ NoDup customers
  /\ StronglySorted (fun a b => String.compare a b = Lt) customers.
Proof.
  unfold load_data. destruct (missing_cols t); [|discriminate].
  intros E. injection E as <- <-. split; [|split].
  - intros c. rewrite sorted_unique_In, in_map_iff.
    split; intros [r [H1 H2]]; exists r; auto.
  - apply sorted_unique_NoDup.
  - apply sorted_unique_sorted.
Qed.

Definition two_customer_sheet : RawTable :=
  mkRawTable required_cols
    [mkRow (Some "XYZ9") (Some "Export") (Some "CIF") (Some "Dispatched")
       (QNumber 7) (Some "Boston");
     mkRow (Some "ABC123") (Some "Domestic") (Some "FOB") (Some "Backlog")
       (QNumber 100) (Some "Chicago");
     mkRow (Some "XYZ9") (Some "Export") (Some "CIF") (Some "Backlog")
       (QNumber 2) (Some "Austin")].

Lemma customers_list_exact_witness :
  snd (load_data parse_digits two_customer_sheet) = ["ABC123"; "XYZ9"]
  /\ NoDup ["ABC123"; "XYZ9"].
Proof.
  split; [reflexivity|].
  exact (proj1 (proj2 (customers_list_exact parse_digits two_customer_sheet
                         _ ["ABC123"; "XYZ9"] eq_refl))).
Defined.


(** ** A customer of the list is found *)

Lemma customer_df_listed (df : list AggRow) (c : string) :
  In c (sorted_unique (map df_SOLDTO df)) -> customer_df df c <> [].
Proof.
  rewrite sorted_unique_In, in_map_iff. intros [r [Er Hr]] E.
  assert (HIn : In r (customer_df df c)).
  { apply customer_df_In. split; [exact Hr | now rewrite Er]. }
  rewrite E in HIn. exact HIn.
Qed.

Lemma ask_found (df : list AggRow) (q : QuestionType) (s : SessionState)
    (c : string) :
  selected_customer s = Some c -> c <> "" -> customer_df df c <> [] ->
  ask df q s =
    ({| selected_customer := Some c;
        messages :=
          (messages s ++
           [mkMessage user (question_text q ++ " for " ++ c);
            mkMessage assistant
              (response q c (breakdown (customer_df df c)))])%list |},
     [UiChat user (question_text q ++ " for " ++ c);
      UiChat assistant (response q c (breakdown (customer_df df c)))]).
Proof.
  intros Hc Hne Hf. unfold ask. rewrite Hc.
  apply String.eqb_neq in Hne. rewrite Hne.
  destruct (customer_df df c) as [|r l]; [congruence|].
  unfold append_message; simpl. now rewrite Hc, <- app_assoc.
Qed.

(** X7.  A query for a customer taken from the customer list of the
    table (and not the empty text) is always answered: the prompt and the
    report of the customer's rows are appended to the history, and the
    "not present" message is not produced. *)
Theorem listed_customer_answered (df : list AggRow) (q : QuestionType)
    (s : SessionState) (c : string) :
  selected_customer s = Some c ->
  c <> "" ->
  In c (sorted_unique (map df_SOLDTO df)) ->
  customer_df df c <> []
  /\ ask df q s =
       ({| selected_customer := Some c;
           messages :=
             (messages s ++
              [mkMessage user (question_text q ++ " for " ++ c);
               mkMessage assistant
                 (response q c (breakdown (customer_df df c)))])%list |},
        [UiChat user (question_text q ++ " for " ++ c);
         UiChat assistant (response q c (breakdown (customer_df df c)))])
  /\ response q c (breakdown (customer_df df c)) <> not_found_text.
Proof.
  intros Hc Hne Hin. pose proof (customer_df_listed df c Hin) as Hf.
  split; [exact Hf|]. split; [now apply ask_found|].
  unfold response, parts.
  destruct q; cbn [wants_backlog wants_mtd app String.concat];
    rewrite ?section_text_shape; unfold section_shape; discriminate.
Qed.

Lemma listed_customer_answered_witness :
  messages (fst (ask sample_df QMTD (mkSession (Some "XYZ9") []))) =
    [mkMessage user "MTD for XYZ9";
     mkMessage assistant
       (response QMTD "XYZ9" (breakdown (customer_df sample_df "XYZ9")))].
Proof.
  destruct (listed_customer_answered sample_df QMTD
              (mkSession (Some "XYZ9") []) "XYZ9" eq_refl) as [_ [E _]].
  - discriminate.
  - vm_compute. tauto.
  - rewrite E. reflexivity.
Defined.

(** ** The totals of a report *)

Section GroupByProjection.
Context {K V : Type} {CK : Cmp K} {CKok : CmpOk K}.
Variable add : V -> V -> V.
Variable f : V -> Q.
Hypothesis f_add : forall a b, f (add a b) = f a + f b.
Variable P : K -> bool.



End GroupByProjection.





(** ** From the sheet to the totals of a customer *)










(** ** The breakdown, key by key *)

Definition breakdown_key (r : AggRow) : BreakdownKey :=
  (df_City r, df_Type r, df_Incoterm r).






(** X11.  When the rows selected for a customer have pairwise different
    (City, Type, Incoterm), the regrouping only orders them: the
    breakdown has these rows, each with its own values. *)
Theorem breakdown_no_collapse (cdf : list AggRow) :
  NoDup (map breakdown_key cdf) ->
  Permutation
    (map (fun r => (breakdown_key r, (Backlog r, MTD r))) cdf)
    (breakdown cdf).
Proof.
  intros Hnd. unfold breakdown. apply groupby_sum_fresh.
  now rewrite map_map.
Qed.

Lemma breakdown_no_collapse_witness :
  Permutation
    [(("Chicago", "Domestic", "FOB"), (100, 40));
     (("Boston", "Export", "CIF"), (5 # 2, 0))]
    (breakdown (customer_df sample_df "ABC123")).
Proof.
  apply (breakdown_no_collapse (customer_df sample_df "ABC123")).
  vm_compute. repeat constructor; simpl; intuition discriminate.
Defined.

(** ** Whole quantities in the number format *)


(** ** Runs of the script *)

(** A history made of exchanges: a user message, then an assistant
    message, and so on. *)
Fixpoint paired (l : list Message) : bool :=
  match l with
  | [] => true
  | m1 :: t =>
      match t with
      | [] => false
      | m2 :: t' =>
          match role m1, role m2 with
          | user, assistant => paired t'
          | _, _ => false
          end
      end
  end.

Lemma paired_app (l : list Message) (u a : string) :
  paired l = true ->
  paired (l ++ [mkMessage user u; mkMessage assistant a]) = true.
Proof.
  assert (G : forall n l, (List.length l <= n)%nat -> paired l = true ->
              paired (l ++ [mkMessage user u; mkMessage assistant a]) = true).
  { clear l. induction n as [|n IH]; intros l Hn Hp.
    - destruct l; [reflexivity | simpl in Hn; lia].
    - destruct l as [|m1 [|m2 t]]; [reflexivity | discriminate |].
      cbn [paired app] in *.
      destruct (role m1); [|discriminate].
      destruct (role m2); [discriminate|].
      apply IH; [simpl in Hn; lia | exact Hp]. }
  apply (G (List.length l)). apply le_n.
Qed.

Lemma ask_history (df : list AggRow) (q : QuestionType) (s : SessionState) :
  messages (fst (ask df q s)) = messages s
  \/ exists u a,
       messages (fst (ask df q s)) =
       (messages s ++ [mkMessage user u; mkMessage assistant a])%list.
Proof.
  unfold ask. destruct (selected_customer s) as [c|]; [|now left].
  destruct (String.eqb c ""); [now left|]. right.
  destruct (customer_df df c); cbn [fst append_message messages];
    rewrite <- app_assoc; eexists; eexists; reflexivity.
Qed.

Lemma script_run_history (parse_number : string -> option Q) (inp : Inputs)
    (ss : StoredSession) :
  let before := messages (init_session ss) in
  let after := messages (fst (fst (script_run parse_number inp ss))) in
  after = [] \/ after = before
  \/ exists u a,
       after = (before ++ [mkMessage user u; mkMessage assistant a])%list.
Proof.
  cbv zeta. unfold script_run.
  destruct (reset_chat inp); [now left|].
  destruct (uploaded_file inp) as [file|]; [|now right; left].
  destruct (load_or_stop parse_number file) as [e|[df cs]]; [now right; left|].
  destruct (clear_search inp); [now left|].
  destruct (ask_clicked inp); [|now right; left].
  pose proof (ask_history df (question inp)
                {| selected_customer := picked inp;
                   messages := messages (init_session ss) |}) as H.
  destruct (ask df (question inp) _) as [s2 shown]. cbn [fst] in *.
  right. exact H.
Qed.

(** X13.  A run of the script never alters or removes single messages:
    afterwards the history is empty (after "Reset Chat" or "Clear
    Search"), or as before, or as before with one user message and one
    assistant message added at the end. *)
Theorem history_cleared_or_extended (parse_number : string -> option Q)
    (inp : Inputs) (ss : StoredSession) :
  let before := messages (init_session ss) in
  let after := messages (fst (fst (script_run parse_number inp ss))) in
  after = []
  \/ after = before
  \/ exists prompt reply,
       after = (before ++ [mkMessage user prompt;
                           mkMessage assistant reply])%list.
Proof.
  apply script_run_history.
Qed.

Lemma script_run_paired (parse_number : string -> option Q) (inp : Inputs)
    (ss : StoredSession) :
  paired (messages (init_session ss)) = true ->
  paired (messages (fst (fst (script_run parse_number inp ss)))) = true.
Proof.
  intros Hp.
  destruct (script_run_history parse_number inp ss) as [E|[E|[u [a E]]]];
    rewrite E; [reflexivity | exact Hp | now apply paired_app].
Qed.

(** X14.  Whatever the user does, run after run from a fresh session, the
    history consists of exchanges: user message, assistant message, user
    message, assistant message, and so on. *)
Theorem history_in_pairs (parse_number : string -> option Q)
    (runs : list Inputs) :
  paired (messages (init_session (session_after parse_number runs))) = true.
Proof.
  unfold session_after.
  assert (G : forall ss,
             paired (messages (init_session ss)) = true ->
             paired (messages (init_session
               (fold_left
                  (fun ss inp =>
                     store_session
                       (fst (fst (script_run parse_number inp ss))))
                  runs ss))) = true).
  { induction runs as [|inp runs IH]; intros ss Hp; [exact Hp|].
    cbn [fold_left]. apply IH. cbn [init_session store_session
      stored_messages stored_selected messages].
    now apply script_run_paired. }
  apply G. reflexivity.
Qed.





(** X17.  A query made on the page for a customer of the select box's
    list (not the empty text) shows the history so far, then the prompt
    and the report, adds both to the history, and the run finishes. *)
Theorem page_query_answered (parse_number : string -> option Q)
    (inp : Inputs) (ss : StoredSession) (file : RawTable)
    (df : list AggRow) (customers_list : list string) (c : string) :
  reset_chat inp = false ->
  uploaded_file inp = Some file ->
  load_data parse_number file = (Some df, customers_list) ->
  clear_search inp = false ->
  ask_clicked inp = true ->
  picked inp = Some c ->
  In c customers_list ->
  c <> "" ->
  let prompt := question_text (question inp) ++ " for " ++ c in
  let reply := response (question inp) c (breakdown (customer_df df c)) in
  script_run parse_number inp ss =
    ({| selected_customer := Some c;
        messages := (messages (init_session ss)
                     ++ [mkMessage user prompt;
                         mkMessage assistant reply])%list |},
     (show_history (messages (init_session ss))
      ++ [ShowUi (UiChat user prompt); ShowUi (UiChat assistant reply)])%list,
     Finished).
Proof.
  intros Hr Hf Hl Hc Ha Hp Hin Hne prompt reply.
  assert (Hcs : customers_list = sorted_unique (map df_SOLDTO df)).
  { revert Hl. unfold load_data. destruct (missing_cols file);
      [|discriminate]. intros E. now injection E as <- <-. }
  subst customers_list.
  pose proof (customer_df_listed df c Hin) as Hfound.
  unfold script_run. rewrite Hr, Hf. unfold load_or_stop. rewrite Hl, Hc, Ha.
  rewrite (ask_found df (question inp) _ c); [| now cbn | exact Hne
                                              | exact Hfound].
  cbn [messages]. unfold ask_stops. cbn [selected_customer]. rewrite Hp.
  apply String.eqb_neq in Hne. rewrite Hne.
  destruct (customer_df df c); [congruence | reflexivity].
Qed.

Lemma page_query_answered_witness :
  fst (script_run parse_digits
         (mkInputs false (Some two_customer_sheet) (Some "XYZ9") false
            QBacklog true)
         (mkStored None None))
  = ({| selected_customer := Some "XYZ9";
        messages :=
          [mkMessage user "Backlog for XYZ9";
           mkMessage assistant
             (response QBacklog "XYZ9"
                (breakdown
                   (customer_df
                      (aggregate (normalize parse_digits two_customer_sheet))
                      "XYZ9")))] |},
     [ShowUi (UiChat user "Backlog for XYZ9");
      ShowUi (UiChat assistant
                (response QBacklog "XYZ9"
                   (breakdown
                      (customer_df
                         (aggregate
                            (normalize parse_digits two_customer_sheet))
                         "XYZ9"))))]).
Proof.
  rewrite (page_query_answered parse_digits _ (mkStored None None)
             two_customer_sheet
             (aggregate (normalize parse_digits two_customer_sheet))
             ["ABC123"; "XYZ9"] "XYZ9");
    try reflexivity.
  - simpl. tauto.
  - discriminate.
Defined.

(** ** Rows that take no part *)

Lemma keyed_rows_relevant (status : string) (p : Row Q -> bool)
    (l : list (Row Q)) :
  (forall r, status_is status r = true -> complete_key r = true ->
             p r = true) ->
  keyed_rows (filter (status_is status) (filter p l)) =
  keyed_rows (filter (status_is status) l).
Proof.
  intros Hp. induction l as [|r l IH]; [reflexivity|].
  cbn [filter]. destruct (status_is status r) eqn:Es.
  - destruct (p r) eqn:Epr; cbn [filter]; rewrite ?Es.
    + cbn [keyed_rows flat_map]. f_equal. exact IH.
    + cbn [keyed_rows flat_map].
      destruct (group_key r) eqn:Ek; [|exact IH].
      assert (Hc : complete_key r = true)
        by (now rewrite group_key_complete, Ek).
      rewrite (Hp r Es Hc) in Epr. discriminate.
  - destruct (p r); cbn [filter]; rewrite ?Es; exact IH.
Qed.

(** X18.  Rows whose status is neither "backlog" nor "dispatched", and
    rows with a missing key cell, never change the result: the aggregate
    table is the same with and without them. *)
Theorem aggregate_ignores_other_rows (l : list (Row Q)) :
  aggregate
    (filter (fun r => (status_is "backlog" r || status_is "dispatched" r)
                      && complete_key r) l)
  = aggregate l.
Proof.
  unfold aggregate, status_totals.
  rewrite !keyed_rows_relevant; [reflexivity | |];
    intros r Hs Hc; rewrite Hs, Hc, ?orb_true_r; reflexivity.
Qed.
